(** * pyEIT, [pyeit/eit/jac.py]: the JAC dynamic EIT solver

    A shallow embedding of [h_matrix], [sar] and the methods of class [JAC]
    ([setup], [solve], [solve_gs], [bp_solve], [gn]), and the properties of
    them that the specification states.

    Numbers.  numpy arrays of (complex) floats are matrices over a closed
    numeric field [F]: arithmetic is exact, the real floats are the elements
    [x \is Num.real], and conjugation is [x^*].  A float operation whose
    IEEE result is [nan] or [inf] (a division by zero) has no value in [F];
    the methods that divide return an [option], [None] for such a result.

    Library calls.  [scipy.linalg.inv] and [scipy.linalg.solve] are external:
    they are modelled by their contract (the inverse, the solution, or
    [LinAlgError] on a singular matrix).  The forward solver [self.fwd] and
    numpy's element-wise power are parameters. *)

From HB Require Import structures.
From mathcomp Require Import boot order algebra.
From mathcomp Require Import field.algC.
From Stdlib Require Import String.

Set Implicit Arguments.
Unset Strict Implicit.
Unset Printing Implicit Defensive.

Import GRing.Theory Num.Theory Order.POrderTheory.
Local Open Scope ring_scope.

(** ** Python values reaching the [method] parameter *)

(** A [str] object has an identity (its address) and a content; [None] is a
    singleton.  The operator [is] compares identities only. *)
Inductive pyobj : Type :=
  | PyNone
  | PyStr (addr : nat) (chars : string).

Definition py_is (a b : pyobj) : bool :=
  match a, b with
  | PyNone, PyNone => true
  | PyStr i _, PyStr j _ => i == j
  | _, _ => false
  end.

Definition py_chars (a : pyobj) : option string :=
  if a is PyStr _ s then Some s else None.

(** String constants that look like identifiers are interned by the
    compiler: every literal ['kotre'] of the program is one object, and so
    is every literal ['lm']. *)
Definition kotre : pyobj := PyStr 0 "kotre".
Definition lm : pyobj := PyStr 1 "lm".

(** [method] is one of the two documented names, by content. *)
Definition known_method (a : pyobj) : bool :=
  match py_chars a with
  | Some s => String.eqb s "kotre" || String.eqb s "lm"
  | None => false
  end.

(** ** Exceptions *)

Inductive exn : Type :=
  | LinAlgError          (* scipy.linalg: singular matrix *)
  | ForwardError.        (* whatever self.fwd.solve raises *)

Inductive result (T : Type) : Type :=
  | Ok (t : T)
  | Raise (e : exn).

Arguments Ok {T} t.
Arguments Raise {T} e.

Definition raises T (r : result T) : bool :=
  if r is Raise _ then true else false.

Definition rbind T U (r : result T) (k : T -> result U) : result U :=
  match r with
  | Ok t => k t
  | Raise e => Raise e
  end.

Notation "x <-r c ;; k" := (rbind c (fun x => k))
  (at level 100, c at next level, right associativity).

(** ** numpy and scipy primitives *)

Section Numpy.

Variable F : numClosedFieldType.

(** [scipy.linalg.inv a] *)
Definition la_inv n (a : 'M[F]_n) : result 'M[F]_n :=
  if a \in unitmx then Ok (invmx a) else Raise LinAlgError.

(** [scipy.linalg.solve a b] *)
Definition la_solve n (a : 'M[F]_n) (b : 'cV[F]_n) : result 'cV[F]_n :=
  if a \in unitmx then Ok (invmx a *m b) else Raise LinAlgError.

(** [np.dot u v] on two 1-D arrays: no conjugation. *)
Definition np_dot m (u v : 'cV[F]_m) : F := \sum_i u i 0 * v i 0.

(** [np.diag a] on a 2-D array: the vector of its diagonal entries. *)
Definition np_diag_of n (a : 'M[F]_n) : 'rV[F]_n := \row_i a i i.

(** [a.T.conjugate()] *)
Definition ctranspose m n (a : 'M[F]_(m, n)) : 'M[F]_(n, m) :=
  map_mx Num.conj a^T.

(** Exponents and [x ** p]. *)
Variable E : Type.
Variable np_power : F -> E -> F.

(** [np.diag(np.diag(a) ** p)] *)
Definition diag_power n (a : 'M[F]_n) (p : E) : 'M[F]_n :=
  diag_mx (map_mx (np_power^~ p) (np_diag_of a)).

(** ** [h_matrix] *)

Definition h_matrix m n (jac : 'M[F]_(m, n)) (p : E) (lamb : F)
    (method : pyobj) : result 'M[F]_(n, m) :=
  let j_w_j := jac^T *m jac in
  let r_mat := if py_is method kotre then diag_power j_w_j p else 1%:M in
  inv <-r la_inv (j_w_j + lamb *: r_mat) ;;
  Ok (inv *m jac^T).

(** What the specification says [h_matrix] computes: the same with the
    conjugate transpose of [jac] in both places. *)
Definition h_matrix_spec m n (jac : 'M[F]_(m, n)) (p : E) (lamb : F)
    (method : pyobj) : result 'M[F]_(n, m) :=
  let g := ctranspose jac *m jac in
  let r_mat := if py_is method kotre then diag_power g p else 1%:M in
  inv <-r la_inv (g + lamb *: r_mat) ;;
  Ok (inv *m ctranspose jac).

(** ** The difference solvers of class [JAC]

    They read [self.H] (and [self.J] for [bp_solve]) only. *)

(** every entry of [v] is nonzero: [x / v] is finite *)
Definition all_nonzero m (v : 'cV[F]_m) : bool := [forall i, v i 0 != 0].

(** element-wise [a / b] *)
Definition np_divide m (a b : 'cV[F]_m) : 'cV[F]_m := \col_i (a i 0 / b i 0).

Definition solve m n (H : 'M[F]_(n, m)) (v1 v0 : 'cV[F]_m) (normalize : bool)
    : option 'cV[F]_n :=
  if normalize then
    if all_nonzero v0 then
      let dv := - np_divide (v1 - v0) v0 in
      Some (- (H *m dv))
    else None
  else
    let dv := v1 - v0 in
    Some (- (H *m dv)).



End Numpy.

(** ** Class [JAC]: [setup] and the Gauss-Newton solver [gn] *)

(** [range k] for a Python [int]: empty when [k] is not positive. *)
Definition range (k : int) : seq nat :=
  if k is Posz n then iota 0 n else [::].

Section Gn.

Variable F : numClosedFieldType.
Variable E : Type.
Variable np_power : F -> E -> F.
Variables m n : nat.

(** What [self.fwd.solve] returns: the object [fs] with [fs.v], [fs.jac]. *)
Record fwd_result : Type := FwdResult {
  fs_v : 'cV[F]_m;
  fs_jac : 'M[F]_(m, n)
}.

(** [self.params] *)
Record jac_params : Type := JacParams {
  param_p : E;
  param_lamb : F;
  param_method : pyobj
}.

(** The attributes of a [JAC] object that the methods read or write.
    [fwd] is [self.fwd.solve] with [self.ex_mat], [self.step] and
    [self.parser] already given: a function of [perm] only. *)
Record jac_obj : Type := JacObj {
  J : 'M[F]_(m, n);
  H : 'M[F]_(n, m);
  params : jac_params;
  perm : 'cV[F]_n;
  fwd : 'cV[F]_n -> result fwd_result
}.

(** [self.setup(p, lamb, method)]: [self.H] and [self.params] are
    replaced; nothing is when [h_matrix] raises. *)
Definition setup (self : jac_obj) (p : E) (lamb : F) (method : pyobj)
    : result jac_obj :=
  h <-r h_matrix np_power (J self) p lamb method ;;
  Ok (JacObj (J self) h (JacParams p lamb method) (perm self) (fwd self)).

(** *** Observable steps of a run of [gn] *)

(** [Printed i lamb] is the line written when [verbose]; [FwdSolve x] is a
    call [self.fwd.solve(..., perm=x, ...)]; [FormH lamb h] marks the
    assignment [h_mat = j_w_j + lamb*r_mat] with the [lamb] it read. *)
Inductive event : Type :=
  | Printed (i : nat) (lamb : F)
  | FwdSolve (x : 'cV[F]_n)
  | FormH (lamb : F) (h_mat : 'M[F]_n).

Definition is_fwd (e : event) : bool :=
  if e is FwdSolve _ then true else false.

Definition lamb_of (e : event) : option F :=
  if e is FormH l _ then Some l else None.

(** the number of times the loop body ran: it calls the forward solver
    first thing after the optional print, once *)
Definition iterations (tr : seq event) : nat := count is_fwd tr.

(** the values of [lamb] with which [h_mat] was formed, in order *)
Definition lambs_used (tr : seq event) : seq F := pmap lamb_of tr.

(** *** A computation: it extends the trace and returns or raises *)

Definition M (T : Type) : Type := seq event -> seq event * result T.

Definition ret T (t : T) : M T := fun tr => (tr, Ok t).

Definition bind T U (c : M T) (k : T -> M U) : M U :=
  fun tr =>
    let: (tr', r) := c tr in
    match r with
    | Ok t => k t tr'
    | Raise e => (tr', Raise e)
    end.

Definition emit (e : event) : M unit := fun tr => (rcons tr e, Ok tt).

Definition lift T (r : result T) : M T := fun tr => (tr, r).

Notation "x <- c ;; k" := (bind c (fun x => k))
  (at level 100, c at next level, right associativity).
Notation "c ;;; k" := (bind c (fun _ => k))
  (at level 100, right associativity).

(** [for i in idx: a = body(i, a)] *)
Fixpoint for_each T (idx : seq nat) (body : nat -> T -> M T) (a : T) : M T :=
  match idx with
  | [::] => ret a
  | i :: idx' => a' <- body i a ;; for_each idx' body a'
  end.

(** *** [gn] *)

(** The regularized matrix of one iteration, lines 144 to 151. *)
Definition gn_h_mat (jac : 'M[F]_(m, n)) (p : E) (lamb : F)
    (method : pyobj) : 'M[F]_n :=
  let j_w_j := ctranspose jac *m jac in
  let r_mat := if py_is method kotre then diag_power np_power j_w_j p
               else 1%:M in
  j_w_j + lamb *: r_mat.

(** The update of the regularization parameter, lines 155 and 156. *)
Definition next_lamb (lamb_min lamb_decay lamb : F) : F :=
  if lamb_min < lamb then lamb * lamb_decay else lamb.

(** The loop body; the loop variables are [x0] and [lamb]. *)
Definition gn_body (self : jac_obj) (v : 'cV[F]_m) (p : E)
    (lamb_decay lamb_min : F) (method : pyobj) (verbose : bool)
    (i : nat) (st : 'cV[F]_n * F) : M ('cV[F]_n * F) :=
  let: (x0, lamb) := st in
  (if verbose then emit (Printed i lamb) else ret tt) ;;;
  emit (FwdSolve x0) ;;;
  fs <- lift (fwd self x0) ;;
  let r0 := v - fs_v fs in
  let jac := fs_jac fs in
  let j_r := ctranspose jac *m r0 in
  let h_mat := gn_h_mat jac p lamb method in
  emit (FormH lamb h_mat) ;;;
  let lamb' := next_lamb lamb_min lamb_decay lamb in
  d_k <- lift (la_solve h_mat j_r) ;;
  ret (x0 - d_k, lamb').

(** [gn] with every argument given: [None] stands for Python's [None] in
    [x0], [p] and [lamb]; [method] may be [PyNone]. *)
Definition gn (self : jac_obj) (v : 'cV[F]_m) (x0 : option 'cV[F]_n)
    (maxiter : int) (p : option E) (lamb : option F)
    (lamb_decay lamb_min : F) (method : pyobj) (verbose : bool)
    : M 'cV[F]_n :=
  let x0 := if x0 is Some x then x else perm self in
  let p := if p is Some p' then p' else param_p (params self) in
  let lamb := if lamb is Some l then l else param_lamb (params self) in
  let method := if py_is method PyNone then param_method (params self)
                else method in
  st <- for_each (range maxiter)
          (gn_body self v p lamb_decay lamb_min method verbose) (x0, lamb) ;;
  ret st.1.

(** A call [self.gn(v, ...)]: a keyword that the caller leaves out takes
    the default of the signature,
    [x0=None, maxiter=1, p=None, lamb=None, lamb_decay=1.0, lamb_min=0,
     method='kotre', verbose=False]. *)
Definition gn_call (self : jac_obj) (v : 'cV[F]_m)
    (x0 : option (option 'cV[F]_n)) (maxiter : option int)
    (p : option (option E)) (lamb : option (option F))
    (lamb_decay lamb_min : option F) (method : option pyobj)
    (verbose : option bool) : M 'cV[F]_n :=
  gn self v (odflt None x0) (odflt 1%Z maxiter) (odflt None p)
     (odflt None lamb) (odflt 1 lamb_decay) (odflt 0 lamb_min)
     (odflt kotre method) (odflt false verbose).

(** A run from the empty trace. *)
Definition run T (c : M T) : seq event * result T := c [::].

End Gn.

(** ** [sar]: the spatial difference matrix of a triangular mesh *)

Section Sar.

(** A row of [el2no]: the three node numbers of a triangle. *)
Definition element : Type := (nat * nat * nat)%type.

Definition nodes (e : element) : seq nat :=
  let: (a, b, c) := e in [:: a; b; c].

Definition el_default : element := (0, 0, 0)%N.

(** [el2no[i, :]] *)
Definition el_row (el2no : seq element) (i : nat) : element :=
  nth el_default el2no i.

(** [np.argwhere(el2no == x)[:, 0]]: the row number of every entry equal
    to [x], in row-major order (a row is listed once per matching entry). *)
Definition argwhere_rows (el2no : seq element) (x : nat) : seq nat :=
  flatten [seq [seq j | y <- nodes (el_row el2no j) & y == x]
          | j <- iota 0 (size el2no)].

(** [np.unique]: sorted, without repetition *)
Definition np_unique (s : seq nat) : seq nat := sort leq (undup s).

(** [np.eye(ne)] *)
Definition np_eye (ne : nat) : seq (seq int) :=
  [seq [seq (if i == j then 1 else 0) | j <- iota 0 ne] | i <- iota 0 ne].

(** [d[i, j]] and [d[i, j] = x] *)
Definition getitem (d : seq (seq int)) (i j : nat) : int :=
  nth 0 (nth [::] d i) j.

Definition setitem (d : seq (seq int)) (i j : nat) (x : int)
    : seq (seq int) :=
  set_nth [::] d i (set_nth 0 (nth [::] d i) j x).

(** the array [idx] of iteration [i] *)
Definition sar_idx (el2no : seq element) (i : nat) : seq nat :=
  let: (e0, e1, e2) := el_row el2no i in
  let i0 := argwhere_rows el2no e0 in
  let i1 := argwhere_rows el2no e1 in
  let i2 := argwhere_rows el2no e2 in
  np_unique (i0 ++ i1 ++ i2).

(** the body of the loop over [i] *)
Definition sar_body (el2no : seq element) (d_mat : seq (seq int)) (i : nat)
    : seq (seq int) :=
  let idx := sar_idx el2no i in
  let d_mat := foldl (fun d j => setitem d i j (-1)) d_mat idx in
  let nn := (size idx)%:Z - 1 in
  setitem d_mat i i nn.

Definition sar (el2no : seq element) : seq (seq int) :=
  let ne := size el2no in
  let d_mat := np_eye ne in
  foldl (sar_body el2no) d_mat (iota 0 ne).

(** An array of [ne] rows of [ne] entries. *)
Definition square (ne : nat) (d : seq (seq int)) : Prop :=
  size d = ne /\ forall i, (i < ne)%N -> size (nth [::] d i) = ne.

(** the entry [(i, j)] of row [i] once iteration [i] is over, [z] being
    what it was before *)
Definition row_entry (el2no : seq element) (i j : nat) (z : int) : int :=
  if j == i then (size (sar_idx el2no i))%:Z - 1
  else if j \in sar_idx el2no i then -1
  else z.

(** *** The element-adjacency graph, as the specification describes it *)

(** [e] and [f] have a node in common *)
Definition shares_node (e f : element) : bool :=
  has (fun x => x \in nodes f) (nodes e).

(** the elements other than [i] that share a node with element [i] *)
Definition neighbours (el2no : seq element) (i : nat) : seq nat :=
  [seq j <- iota 0 (size el2no)
  | (j != i) && shares_node (el_row el2no i) (el_row el2no j)].

End Sar.

(** ** The remaining methods of class [JAC] *)

Module JAC.

Section Methods.

Variable F : numClosedFieldType.




End Methods.

End JAC.

(** ** The trace of a run without what [verbose] prints *)

Definition is_printed (F : numClosedFieldType) (n : nat) (e : event F n)
    : bool :=
  if e is Printed _ _ then true else false.

Definition silent (F : numClosedFieldType) (n : nat) (tr : seq (event F n))
    : seq (event F n) :=
  [seq e <- tr | ~~ is_printed e].

(** ** Small instances *)

(** [x ** k] for an integer exponent [k >= 0] *)
Definition int_power (x : algC) (k : nat) : algC := x ^+ k.

(** the 1-D array [[a, b]] *)
Definition vec2 (F : numClosedFieldType) (a b : F) : 'cV[F]_2 :=
  \col_i (if (i : nat) == 0%N then a else b).

(** the 1 by 1 Jacobian [[1j]] *)
Definition jac_i : 'M[algC]_1 := 'i%:M.

(** a forward solver on one element and one measurement: [v = perm],
    Jacobian [[1]] *)
Definition fwd_id (x : 'cV[algC]_1) : result (fwd_result algC 1 1) :=
  Ok (FwdResult x 1%:M).

(** a [JAC] object around it, as [setup(p=0, lamb=1, method='lm')]
    leaves it *)
Definition jac_id : jac_obj algC nat 1 1 :=
  JacObj 1%:M (2^-1)%:M (JacParams 0%N 1 lm) 0 fwd_id.

(** a forward solver with [v = 2*perm] and Jacobian [[2]], and the [JAC]
    object around it as [setup(p=1, lamb=1, method='lm')] leaves it *)
Definition fwd_two (x : 'cV[algC]_1) : result (fwd_result algC 1 1) :=
  Ok (FwdResult (2 *: x) 2%:M).

Definition jac_two : jac_obj algC nat 1 1 :=
  JacObj 2%:M (2 / 5)%:M (JacParams 1%N 1 lm) 1%:M fwd_two.

(** a forward solver that fails, and a [JAC] object around it *)
Definition fwd_fail (x : 'cV[algC]_1) : result (fwd_result algC 1 1) :=
  Raise ForwardError.

Definition jac_fail : jac_obj algC nat 1 1 :=
  JacObj 1%:M (2^-1)%:M (JacParams 0%N 1 lm) 0 fwd_fail.



(** a method name that is neither of the two *)
Definition tikhonov : pyobj := PyStr 2 "tikhonov".

(** * Properties *)

(** ** [h_matrix] *)

Section HMatrix.

Variable F : numClosedFieldType.
Variable E : Type.
Variable np_power : F -> E -> F.

Lemma la_inv_scalar n (a : F) :
  a != 0 -> la_inv (a%:M : 'M[F]_n) = Ok (a^-1)%:M.
Proof.
move=> a0; rewrite /la_inv unitmxE det_scalar unitfE expf_neq0 //.
by rewrite invmx_scalar.
Qed.

Lemma ctranspose_scalar n (a : F) :
  ctranspose (a%:M : 'M[F]_n) = (a^*)%:M.
Proof. by rewrite /ctranspose tr_scalar_mx map_scalar_mx. Qed.

Lemma ctranspose_real m n (a : 'M[F]_(m, n)) :
  a \is a mxOver Num.real -> ctranspose a = a^T.
Proof. by move=> ar; rewrite /ctranspose -map_trmx realmxC. Qed.

(** On a real Jacobian the transpose is the conjugate transpose, and
    [h_matrix] computes what the specification says. *)
Lemma h_matrix_real m n (jac : 'M[F]_(m, n)) p lamb method :
  jac \is a mxOver Num.real ->
  h_matrix np_power jac p lamb method
  = h_matrix_spec np_power jac p lamb method.
Proof.
by move=> jr; rewrite /h_matrix /h_matrix_spec ctranspose_real.
Qed.

(** With [x ** p = 1] for every [x], [np.diag(np.diag(a) ** p)] is the
    identity matrix. *)
Lemma diag_power_one n (a : 'M[F]_n) p :
  (forall x, np_power x p = 1) -> diag_power np_power a p = 1%:M.
Proof.
move=> pw1; rewrite /diag_power; apply/matrixP=> i j.
by rewrite !mxE pw1.
Qed.

(** *** A real Jacobian and [lamb > 0]: the matrix to invert is positive
    definite, [scipy.linalg.inv] does not raise *)

Lemma tr_mul_ctranspose m n (y : 'M[F]_(m, n)) :
  \tr (y *m ctranspose y) = \sum_i \sum_j y i j * (y i j)^*.
Proof.
rewrite /mxtrace; apply: eq_bigr => i _; rewrite mxE.
by apply: eq_bigr => j _; rewrite !mxE.
Qed.

Lemma tr_mul_ctranspose_ge0 m n (y : 'M[F]_(m, n)) :
  0 <= \tr (y *m ctranspose y).
Proof.
rewrite tr_mul_ctranspose; apply: sumr_ge0 => i _; apply: sumr_ge0 => j _.
exact: mul_conjC_ge0.
Qed.

Lemma tr_mul_ctranspose_eq0 m n (y : 'M[F]_(m, n)) :
  \tr (y *m ctranspose y) = 0 -> y = 0.
Proof.
rewrite tr_mul_ctranspose => /eqP.
rewrite psumr_eq0 => [i _|/allP row0].
  by apply: sumr_ge0 => j _; apply: mul_conjC_ge0.
apply/matrixP => i j; rewrite mxE.
have := row0 i (mem_index_enum i); rewrite /= psumr_eq0 => [k _|/allP col0].
  exact: mul_conjC_ge0.
by have := col0 j (mem_index_enum j); rewrite /= mul_conjC_eq0 => /eqP.
Qed.

Lemma gram_real_unit m n (jac : 'M[F]_(m, n)) (lamb : F) :
  jac \is a mxOver Num.real -> 0 < lamb ->
  jac^T *m jac + lamb *: 1%:M \in unitmx.
Proof.
move=> jac_real lamb_gt0; rewrite -row_free_unit -kermx_eq0.
set a := _ + _; set x := kermx a.
have : \tr (x *m a *m ctranspose x) = 0 by rewrite mulmx_ker mul0mx mxtrace0.
have -> : x *m a *m ctranspose x
          = (x *m jac^T) *m ctranspose (x *m jac^T)
            + lamb *: (x *m ctranspose x).
  rewrite /a mulmxDr mulmxDl scalemx1 mul_mx_scalar -scalemxAl.
  congr (_ + _); rewrite {2}/ctranspose trmx_mul trmxK map_mxM.
  by rewrite (realmxC jac_real) !mulmxA.
rewrite mxtraceD mxtraceZ => /eqP.
rewrite paddr_eq0 ?tr_mul_ctranspose_ge0 //;
  first by rewrite mulr_ge0 ?tr_mul_ctranspose_ge0 // ltW.
case/andP => _; rewrite mulf_eq0 (gt_eqF lamb_gt0) /= => /eqP.
by move/tr_mul_ctranspose_eq0 => ->.
Qed.

(** With a real Jacobian and [lamb > 0], method lm, or method kotre with
    the exponent 0, returns a matrix. *)
Lemma h_matrix_real_returns m n (jac : 'M[F]_(m, n)) (p0 : E) (lamb : F) :
  (forall x, np_power x p0 = 1) ->
  jac \is a mxOver Num.real -> 0 < lamb ->
  h_matrix np_power jac p0 lamb lm
    = Ok (invmx (jac^T *m jac + lamb *: 1%:M) *m jac^T)
  /\ h_matrix np_power jac p0 lamb kotre
    = Ok (invmx (jac^T *m jac + lamb *: 1%:M) *m jac^T).
Proof.
move=> pw1 jac_real lamb_gt0.
by rewrite /h_matrix /= diag_power_one // /la_inv gram_real_unit.
Qed.

(** C6: with the exponent [p = 0], for which [x ** p] is 1 whatever [x],
    [h_matrix] gives for method kotre what it gives for method lm, for
    every Jacobian and every [lamb] (positive or not): the same matrix, or
    the same failure. *)
Theorem h_matrix_kotre_p0 m n (jac : 'M[F]_(m, n)) (p0 : E) (lamb : F) :
  (forall x, np_power x p0 = 1) ->
  h_matrix np_power jac p0 lamb kotre = h_matrix np_power jac p0 lamb lm.
Proof.
by move=> pw1; rewrite /h_matrix /= diag_power_one.
Qed.

(** C8: the 2 by 2 identity with [lamb = 1] and method lm gives 0.5 times
    the identity, whatever [p], and the difference solve of [v1 = [2, 0]]
    against [v0 = [0, 0]] with that matrix, not normalized, gives
    [[-1, 0]]. *)
Theorem h_matrix_identity_scenario (p : E) :
  h_matrix np_power (1%:M : 'M[F]_2) p 1 lm = Ok (2^-1)%:M
  /\ solve (2^-1)%:M (vec2 2 0) (vec2 0 0) false = Some (vec2 (-1 : F) 0).
Proof.
split.
  rewrite /h_matrix /= trmx1 mulmx1 scalemx1 -raddfD /= -[1 + 1]/(2 : F).
  by rewrite la_inv_scalar /= ?mulmx1 ?pnatr_eq0.
rewrite /solve /=; congr Some.
rewrite mul_scalar_mx; apply/matrixP=> i j; rewrite !mxE.
case: eqP => _; last by rewrite subr0 mulr0 oppr0.
by rewrite subr0 mulVf // pnatr_eq0.
Qed.

End HMatrix.

(** C1: on the complex 1 by 1 Jacobian [[1j]] with [lamb = 2] and method
    lm, [h_matrix] multiplies by the plain transpose: it forms
    [G = 1j*1j = -1] and returns [(G + 2)^-1 * 1j = 1j], where the
    conjugate-transpose product is [G = 1] and gives [-1j/3]. *)
Theorem h_matrix_transpose_unconjugated :
  h_matrix int_power jac_i 0%N 2 lm = Ok 'i%:M
  /\ h_matrix_spec int_power jac_i 0%N 2 lm = Ok (- 'i / 3)%:M
  /\ h_matrix int_power jac_i 0%N 2 lm
     <> h_matrix_spec int_power jac_i 0%N 2 lm.
Proof.
have code : h_matrix int_power jac_i 0%N 2 lm = Ok 'i%:M.
  rewrite /h_matrix /jac_i /= tr_scalar_mx -scalar_mxM scalemx1 -raddfD /=.
  rewrite -expr2 sqrCi.
  have -> : -1 + 2 = 1 :> algC by rewrite addrC -[2]/(1 + 1) addrK.
  by rewrite la_inv_scalar ?oner_eq0 //= invr1 mul1mx.
have spec : h_matrix_spec int_power jac_i 0%N 2 lm = Ok (- 'i / 3)%:M.
  rewrite /h_matrix_spec /jac_i /= ctranspose_scalar -scalar_mxM scalemx1.
  rewrite -raddfD /= conjCi mulNr -expr2 sqrCi opprK.
  have -> : 1 + 2 = 3 :> algC by rewrite -[1]/(1%:R) -natrD.
  rewrite la_inv_scalar ?pnatr_eq0 //= -scalar_mxM.
  by rewrite mulrC.
split=> //; split=> //; rewrite code spec => -[] /matrixP /(_ 0 0).
rewrite !mxE /= !mulr1n => /(congr1 (fun x => x * 3)).
rewrite divfK ?pnatr_eq0 // => /eqP; rewrite -subr_eq0 opprK.
rewrite -[X in _ + X]mulr1 -mulrDr mulf_eq0 (negPf (neq0Ci _)) /=.
by rewrite -[1]/(1%:R) -natrD pnatr_eq0.
Qed.

(** ** The difference solvers *)

Section Difference.

Variable F : numClosedFieldType.
Variables m n : nat.


(** On real vectors [np.dot v v] is the squared norm: it vanishes on the
    zero vector only. *)
Lemma np_dot_real_neq0 (v : 'cV[F]_m) :
  (forall i, v i 0 \is Num.real) -> v != 0 -> np_dot v v != 0.
Proof.
move=> vr vn0; apply: contra_neq vn0 => /eqP.
rewrite /np_dot psumr_eq0 => [i _|/allP v0]; first by rewrite -expr2 -realEsqr.
apply/matrixP=> i j; rewrite ord1 mxE.
have /(_ (mem_index_enum i)) := v0 i.
by rewrite /= mulf_eq0 orbb => /eqP.
Qed.


End Difference.



(** ** The Gauss-Newton solver *)

Section GnProps.

Variable F : numClosedFieldType.
Variable E : Type.
Variable np_power : F -> E -> F.
Variables m n : nat.

Notation jac_obj := (jac_obj F E m n).
Notation event := (event F n).

Implicit Types (self : jac_obj) (v : 'cV[F]_m) (x : 'cV[F]_n).
Implicit Types (tr : seq event) (lamb : F) (method : pyobj).

Lemma iterations_rcons tr (e : event) :
  iterations (rcons tr e) = (iterations tr + is_fwd e)%N.
Proof. by rewrite /iterations -cats1 count_cat /= addn0. Qed.

Lemma lambs_used_rcons tr (e : event) :
  lambs_used (rcons tr e)
  = if lamb_of e is Some l then rcons (lambs_used tr) l else lambs_used tr.
Proof.
rewrite /lambs_used -cats1 pmap_cat /=.
by case: (lamb_of e) => [l|]; rewrite ?cats1 ?cats0.
Qed.

(** Every execution of the loop body calls the forward solver once,
    whether it then returns or raises. *)
Lemma gn_body_iterations self v p ld lmin method verbose i st tr :
  iterations (gn_body np_power self v p ld lmin method verbose i st tr).1
  = (iterations tr).+1.
Proof.
case: st => x lamb; rewrite /gn_body /bind /emit /lift /ret.
case: verbose => /=; case: (fwd self x) => [fs|e] /=;
  rewrite ?iterations_rcons ?addn0 ?addn1 //;
  by case: (la_solve _ _) => [d|e] /=;
     rewrite !iterations_rcons /= ?addn0 ?addn1.
Qed.

(** Inversion of the steps of a computation that returns. *)
Lemma bind_ok {T U} {c : M F n T} {k : T -> M F n U} {tr tr' u} :
  bind c k tr = (tr', Ok u) ->
  exists t tr1, c tr = (tr1, Ok t) /\ k t tr1 = (tr', Ok u).
Proof.
rewrite /bind; case: (c tr) => tr1 [t|e] //= eq_k.
by exists t, tr1.
Qed.

Lemma emit_ok {e : event} {tr tr' u} :
  emit e tr = (tr', Ok u) -> tr' = rcons tr e.
Proof. by case. Qed.

Lemma lift_ok {T} {r : result T} {tr tr' t} :
  lift r tr = (tr', Ok t) -> r = Ok t /\ tr' = tr.
Proof. by case=> <- ->. Qed.

Lemma ret_ok {T} {t t' : T} {tr tr'} :
  ret t tr = (tr', Ok t') -> t' = t /\ tr' = tr.
Proof. by case=> <- <-. Qed.

(** An execution of the body that returns: what it did. *)
Lemma gn_body_ok self v p ld lmin method verbose i x lamb tr tr' x' lamb' :
  gn_body np_power self v p ld lmin method verbose i (x, lamb) tr
    = (tr', Ok (x', lamb')) ->
  exists fs d,
    [/\ fwd self x = Ok fs,
        la_solve (gn_h_mat np_power (fs_jac fs) p lamb method)
                 (ctranspose (fs_jac fs) *m (v - fs_v fs)) = Ok d,
        x' = x - d,
        lamb' = next_lamb lmin ld lamb
      & lambs_used tr' = rcons (lambs_used tr) lamb].
Proof.
rewrite /gn_body => /bind_ok [[] [t1 [printed]]].
have {printed} eq1 : lambs_used t1 = lambs_used tr.
  case: verbose printed => /= [/emit_ok ->|/ret_ok [_ ->]] //.
  by rewrite lambs_used_rcons.
move=> /bind_ok [[] [t2 [/emit_ok eq2]]].
move=> /bind_ok [fs [t3 [/lift_ok [fwd_fs eq3]]]].
move=> /bind_ok [[] [t4 [/emit_ok eq4]]].
move=> /bind_ok [d [t5 [/lift_ok [solve_d eq5]]]] /ret_ok [[-> ->] ->].
exists fs, d; split=> //.
by rewrite eq5 eq4 eq3 eq2 !lambs_used_rcons /= eq1.
Qed.

Lemma for_each_cons T (body : nat -> T -> M F n T) i idx a tr :
  for_each (i :: idx) body a tr
  = bind (body i a) (fun a' => for_each idx body a') tr.
Proof. by []. Qed.

(** The body runs once per index until one execution raises. *)
Lemma for_each_iterations T (body : nat -> T -> M F n T) idx a tr :
  (forall i a tr, iterations (body i a tr).1 = (iterations tr).+1) ->
  let r := for_each idx body a tr in
  (iterations r.1 <= iterations tr + size idx)%N
  /\ (~~ raises r.2 -> iterations r.1 = (iterations tr + size idx)%N).
Proof.
move=> body1; elim: idx a tr => [|i idx IH] a tr /=.
  by rewrite addn0.
rewrite /bind; case eq_b: (body i a tr) => [tr1 [a1|e]].
  have [] := IH a1 tr1.
  by have := body1 i a tr; rewrite eq_b /= => ->; rewrite addSnnS.
have := body1 i a tr; rewrite eq_b /= => ->; split=> //.
by rewrite addnS ltnS leq_addr.
Qed.

(** A loop that returns: [lamb] went through [next_lamb] once per
    iteration, and each iteration formed [h_mat] with the value it had on
    entry. *)
Lemma gn_loop_ok self v p ld lmin method verbose idx x lamb tr tr' x' lamb' :
  for_each idx (gn_body np_power self v p ld lmin method verbose)
    (x, lamb) tr = (tr', Ok (x', lamb')) ->
  lambs_used tr'
  = lambs_used tr ++ traject (next_lamb lmin ld) lamb (size idx).
Proof.
elim: idx x lamb tr => [|i idx IH] x lamb tr /=.
  by case/ret_ok=> _ ->; rewrite cats0.
move=> /bind_ok [[x1 lamb1] [tr1 [/gn_body_ok body_i /IH ->]]].
have [fs [d [_ _ _ -> ->]]] := body_i.
by rewrite cat_rcons.
Qed.

Lemma gn_iterations self v (x0 : option 'cV[F]_n) maxiter p
    (lamb : option F) ld lmin method verbose :
  let r := run (gn np_power self v x0 maxiter p lamb ld lmin method verbose) in
  (iterations r.1 <= size (range maxiter))%N
  /\ (~~ raises r.2 -> iterations r.1 = size (range maxiter)).
Proof.
rewrite /run /gn /bind.
set body := gn_body _ _ _ _ _ _ _ _.
set st := (_, _).
have [] := @for_each_iterations _ body (range maxiter) st [::].
  by move=> i a tr; apply: gn_body_iterations.
by case: (for_each _ _ _ _) => tr [a|e].
Qed.

(** C3, what holds: with [maxiter <= 0] the loop body does not run at
    all, the forward solver is not called and [gn] returns the initial
    estimate; with [maxiter >= 0] the body runs at most [maxiter] times,
    and exactly [maxiter] times when no iteration raises. *)
Theorem gn_iteration_count self v (x0 : option 'cV[F]_n) maxiter p
    (lamb : option F) ld lmin method verbose :
  let r := run (gn np_power self v x0 maxiter p lamb ld lmin method verbose) in
  [/\ maxiter <= 0 ->
        r = ([::], Ok (if x0 is Some x then x else perm self)),
      0 <= maxiter -> ((iterations r.1)%:Z <= maxiter)
    & 0 <= maxiter -> ~~ raises r.2 -> (iterations r.1)%:Z = maxiter].
Proof.
have [] := gn_iterations self v x0 maxiter p lamb ld lmin method verbose.
case: maxiter => k /= le_k eq_k; split=> //.
- by rewrite lez_nat leqn0 => /eqP k0; rewrite k0 /run /gn.
- by move=> _; rewrite lez_nat -[k in (_ <= k)%N](size_iota 0).
- by move=> _ /eq_k ->; rewrite size_iota.
Qed.


(** C5: with [maxiter = 1], a forward solver that returns the measured
    [v] itself at the initial estimate, and a nonsingular [h_mat], the
    update [d_k] is the zero vector and [gn] returns the initial
    estimate. *)
Theorem gn_zero_residual self v (x0 : option 'cV[F]_n) p
    (lamb : option F) ld lmin method verbose jac :
  let x := if x0 is Some x then x else perm self in
  let p' := if p is Some p' then p' else param_p (params self) in
  let lamb' := if lamb is Some l then l else param_lamb (params self) in
  let method' := if py_is method PyNone then param_method (params self)
                 else method in
  fwd self x = Ok (FwdResult v jac) ->
  gn_h_mat np_power jac p' lamb' method' \in unitmx ->
  la_solve (gn_h_mat np_power jac p' lamb' method')
           (ctranspose jac *m (v - v)) = Ok 0
  /\ (run (gn np_power self v x0 1 p lamb ld lmin method verbose)).2 = Ok x.
Proof.
move=> x p' lamb' method' fwd_x unit_h.
have solve0 : la_solve (gn_h_mat np_power jac p' lamb' method')
                (ctranspose jac *m (v - v)) = Ok 0.
  by rewrite /la_solve unit_h subrr !mulmx0.
split=> //; rewrite /run /gn /= -/x -/p' -/lamb' -/method'.
rewrite /gn_body /bind /emit /lift /ret.
by case: verbose; rewrite /= fwd_x /= solve0 /= subr0.
Qed.

(** *** The [method] argument *)

Lemma gn_h_mat_not_kotre (jac : 'M[F]_(m, n)) p lamb method :
  ~~ py_is method kotre ->
  gn_h_mat np_power jac p lamb method = gn_h_mat np_power jac p lamb lm.
Proof. by rewrite /gn_h_mat => /negPf ->. Qed.

Lemma gn_body_not_kotre self v p ld lmin method verbose i st tr :
  ~~ py_is method kotre ->
  gn_body np_power self v p ld lmin method verbose i st tr
  = gn_body np_power self v p ld lmin lm verbose i st tr.
Proof.
move=> not_kotre; case: st => x lamb.
rewrite /gn_body /bind /emit /lift /ret.
by case: verbose => /=; case: (fwd self x) => [fs|e] //=;
   rewrite gn_h_mat_not_kotre.
Qed.

Lemma eq_for_each T (b1 b2 : nat -> T -> M F n T) idx a tr :
  (forall i a tr, b1 i a tr = b2 i a tr) ->
  for_each idx b1 a tr = for_each idx b2 a tr.
Proof.
move=> eq_b; elim: idx a tr => [|i idx IH] a tr //=.
rewrite /bind eq_b; case: (b2 i a tr) => tr1 [a1|e] //.
Qed.

(** C2, what holds: a [method] that is not the object ['kotre'] (nor
    [None], which [gn] replaces by the configured one) is not rejected:
    [h_matrix] and [gn] do with it exactly what they do with ['lm'], the
    identity as regularization matrix. *)
Theorem unknown_method_is_lm self v (x0 : option 'cV[F]_n) maxiter p
    (lamb : option F) ld lmin verbose (jac : 'M[F]_(m, n)) p1 lamb1 method :
  ~~ py_is method kotre -> ~~ py_is method PyNone ->
  h_matrix np_power jac p1 lamb1 method = h_matrix np_power jac p1 lamb1 lm
  /\ forall tr,
       gn np_power self v x0 maxiter p lamb ld lmin method verbose tr
       = gn np_power self v x0 maxiter p lamb ld lmin lm verbose tr.
Proof.
move=> not_kotre not_none; split; first by rewrite /h_matrix (negPf not_kotre).
move=> tr; rewrite /gn (negPf not_none) /= /bind.
rewrite (@eq_for_each _ _
           (gn_body np_power self v
              (if p is Some p' then p' else param_p (params self))
              ld lmin lm verbose)) //.
by move=> i a tr1; apply: gn_body_not_kotre.
Qed.


End GnProps.

(** ** The instances *)

Lemma la_solve_scalar (F : numClosedFieldType) n (a : F) (b : 'cV[F]_n) :
  a != 0 -> la_solve a%:M b = Ok (a^-1 *: b).
Proof.
move=> a0; rewrite /la_solve unitmxE det_scalar unitfE expf_neq0 //.
by rewrite invmx_scalar mul_scalar_mx.
Qed.

Lemma gn_h_mat_id p (lamb : algC) method :
  ~~ py_is method kotre ->
  gn_h_mat int_power (1%:M : 'M[algC]_1) p lamb method = (1 + lamb)%:M.
Proof.
move=> /negPf not_kotre; rewrite /gn_h_mat not_kotre.
by rewrite ctranspose_scalar conjC1 mulmx1 scalemx1 -raddfD.
Qed.

(** One iteration on [jac_id] with a method other than kotre. *)
Lemma gn_body_id v p (ld lmin : algC) method i x (lamb : algC) tr :
  ~~ py_is method kotre -> 1 + lamb != 0 ->
  gn_body int_power jac_id v p ld lmin method false i (x, lamb) tr
  = (rcons (rcons tr (FwdSolve x)) (FormH lamb (1 + lamb)%:M),
     Ok (x - (1 + lamb)^-1 *: (v - x), next_lamb lmin ld lamb)).
Proof.
move=> not_kotre unit_h.
rewrite /gn_body /bind /emit /lift /ret /= gn_h_mat_id //.
by rewrite ctranspose_scalar conjC1 mul1mx la_solve_scalar.
Qed.

Lemma next_lamb_ge0 (lmin ld lamb : algC) :
  0 <= ld -> 0 <= lamb -> 0 <= next_lamb lmin ld lamb.
Proof.
by move=> ld0 l0; rewrite /next_lamb; case: ifP => // _; apply: mulr_ge0.
Qed.

(** With nonnegative [lamb] and [lamb_decay] no iteration on [jac_id]
    raises. *)
Lemma gn_loop_id v p (ld lmin : algC) method idx x (lamb : algC) tr :
  ~~ py_is method kotre -> 0 <= ld -> 0 <= lamb ->
  ~~ raises (for_each idx (gn_body int_power jac_id v p ld lmin method false)
               (x, lamb) tr).2.
Proof.
move=> not_kotre ld0; elim: idx x lamb tr => [|i idx IH] x lamb tr l0 //.
rewrite for_each_cons /bind gn_body_id //.
  by apply: lt0r_neq0; apply: ltr_pwDl.
by apply: IH; apply: next_lamb_ge0.
Qed.

Lemma gn_id_returns v (x0 : option 'cV[algC]_1) maxiter p (ld lmin : algC) :
  0 <= ld ->
  ~~ raises (run (gn int_power jac_id v x0 maxiter p (Some 1) ld lmin lm
                    false)).2.
Proof.
move=> ld0; rewrite /run /gn /= /bind.
set loop := for_each _ _ _ _.
have : ~~ raises loop.2 by apply: gn_loop_id.
by case: loop => tr [a|e].
Qed.

Local Arguments gn_body : simpl never.


(** C2, as stated, fails: ['tikhonov'] is neither name, and both
    [h_matrix] and [gn] return with it. *)
Lemma unknown_method_accepted :
  [/\ ~~ known_method tikhonov,
      h_matrix int_power (1%:M : 'M[algC]_1) 0%N 1 tikhonov = Ok (2^-1)%:M
    & run (gn int_power jac_id 0 None 1 None None 1 0 tikhonov false)
      = ([:: FwdSolve 0; FormH 1 2%:M], Ok 0)].
Proof.
split=> //.
  rewrite /h_matrix /= trmx1 mulmx1 scalemx1 -raddfD /=.
  by rewrite -[1 + 1]/(2 : algC) la_inv_scalar ?pnatr_eq0 //= mulmx1.
rewrite /run /gn /= /bind gn_body_id -?[1 + 1]/(2 : algC) ?pnatr_eq0 //=.
by rewrite /ret subrr scaler0 subr0.
Qed.

Lemma unknown_method_is_lm_witness :
  h_matrix int_power jac_i 0%N 2 tikhonov = h_matrix int_power jac_i 0%N 2 lm
  /\ forall tr,
       gn int_power jac_id 0 None 1 None None 1 0 tikhonov false tr
       = gn int_power jac_id 0 None 1 None None 1 0 lm false tr.
Proof.
by apply: (@unknown_method_is_lm _ _ int_power 1 1 jac_id 0 None 1 None None
             1 0 false jac_i 0%N 2 tikhonov).
Defined.

(** C3, as stated, fails: with [maxiter = 0] the body does not run, and
    [gn] returns [self.perm] without a call of the forward solver. *)
Lemma gn_maxiter0_no_iteration :
  run (gn int_power jac_id 0 None 0 None None 1 0 kotre false) = ([::], Ok 0)
  /\ ~ (1 <= iterations
              (run (gn int_power jac_id 0 None 0 None None 1 0 kotre false)).1)%N.
Proof. by []. Qed.

Lemma gn_iteration_count_witness :
  (iterations
     (run (gn int_power jac_id 0 None 2 None (Some 1) 1 0 lm false)).1)%:Z = 2
  /\ run (gn int_power jac_id 0 None 0 None (Some 1) 1 0 lm false)
     = ([::], Ok 0).
Proof.
have [run0 _ run2] :=
  @gn_iteration_count _ _ int_power 1 1 jac_id 0 None 2 None (Some 1) 1 0 lm
    false.
have [run0' _ _] :=
  @gn_iteration_count _ _ int_power 1 1 jac_id 0 None 0 None (Some 1) 1 0 lm
    false.
split; first by apply: run2 => //; apply: gn_id_returns.
exact: run0'.
Defined.


Lemma gn_zero_residual_witness :
  la_solve (gn_h_mat int_power (1%:M : 'M[algC]_1) 0%N 1 lm)
    (ctranspose (1%:M : 'M[algC]_1) *m (0 - 0)) = Ok 0
  /\ (run (gn int_power jac_id 0 None 1 None None 1 0 lm false)).2 = Ok 0.
Proof.
apply: (@gn_zero_residual _ _ int_power 1 1 jac_id 0 None None None 1 0 lm
          false 1%:M) => //=.
by rewrite gn_h_mat_id // unitmxE det_scalar1 unitfE -[1 + 1]/(2 : algC)
     pnatr_eq0.
Defined.

Lemma h_matrix_kotre_p0_witness :
  h_matrix int_power jac_i 0%N 2 kotre = h_matrix int_power jac_i 0%N 2 lm.
Proof. by apply: h_matrix_kotre_p0 => x; rewrite /int_power expr0. Defined.

Lemma diag_power_scalar1 (a : algC) (p : nat) :
  diag_power int_power (a%:M : 'M[algC]_1) p = (a ^+ p)%:M.
Proof.
by apply/matrixP => i j; rewrite !ord1 !mxE /= !mulr1n /int_power.
Qed.

(** After [setup(p=1, lamb=1, method='lm')] on [jac_two], [gn(v)] with
    [v = 0] divides by [4 + 1*4] as method kotre does and returns 1.5;
    [gn(v, method=None)] divides by [4 + 1] as method lm does and returns
    1.8. *)
Lemma gn_after_setup_lm :
  [/\ setup int_power jac_two 1%N 1 lm = Ok jac_two,
      (run (gn_call int_power jac_two 0 None None None None None None None
              None)).2 = Ok (3 / 2)%:M
    & (run (gn_call int_power jac_two 0 None None None None None None
              (Some PyNone) None)).2 = Ok (9 / 5)%:M].
Proof.
have n4 : 2 * 2 = 4 :> algC by rewrite -natrM.
split.
- rewrite /setup /h_matrix /= tr_scalar_mx -scalar_mxM scalemx1 -raddfD /= n4.
  have -> : 4 + 1 = 5 :> algC by rewrite -[1]/(1%:R) -natrD.
  by rewrite la_inv_scalar ?pnatr_eq0 //= -scalar_mxM mulrC.
- rewrite /run /gn_call /gn /= /bind /gn_body /bind /emit /lift /ret /=.
  rewrite /gn_h_mat /= ctranspose_scalar conj_Creal ?realn // -scalar_mxM n4.
  rewrite diag_power_scalar1 expr1 scale_scalar_mx mul1r -raddfD /=.
  have -> : 4 + 4 = 8 :> algC by rewrite -natrD.
  rewrite scalemx1 sub0r mul_scalar_mx scalerN scale_scalar_mx n4.
  rewrite la_solve_scalar ?pnatr_eq0 //= scalerN scale_scalar_mx opprK.
  rewrite -raddfD /=; congr (Ok _%:M).
  have -> : 8^-1 * 4 = 2^-1 :> algC.
    by rewrite -[8]/((2 * 4)%:R) natrM invfM mulfVK ?pnatr_eq0.
  apply: (mulIf (x := 2)); rewrite ?pnatr_eq0 //.
  by rewrite mulrDl mul1r mulVf ?pnatr_eq0 // divfK ?pnatr_eq0 // addrC.
- rewrite /run /gn_call /gn /= /bind /gn_body /bind /emit /lift /ret /=.
  rewrite /gn_h_mat /= ctranspose_scalar conj_Creal ?realn // -scalar_mxM n4.
  rewrite scalemx1 -raddfD /=.
  have -> : 4 + 1 = 5 :> algC by rewrite -[1]/(1%:R) -natrD.
  rewrite scalemx1 sub0r mul_scalar_mx scalerN scale_scalar_mx n4.
  rewrite la_solve_scalar ?pnatr_eq0 //= scalerN scale_scalar_mx opprK.
  rewrite -raddfD /=; congr (Ok _%:M).
  apply: (mulIf (x := 5)); rewrite ?pnatr_eq0 //.
  rewrite mulrDl mul1r -mulrA [4 * 5]mulrC mulKf ?pnatr_eq0 //.
  by rewrite divfK ?pnatr_eq0 // -natrD.
Qed.


(** ** [sar] *)

Section SarProps.

Variable el2no : seq element.

Local Notation ne := (size el2no).
Local Notation square := (square ne).
Local Notation row_entry := (row_entry el2no).

(** [argwhere] lists row [j] when, and only when, [x] is one of its
    nodes. *)
Lemma mem_argwhere_rows (x j : nat) :
  (j \in argwhere_rows el2no x)
  = (j < ne)%N && (x \in nodes (el_row el2no j)).
Proof.
apply/flattenP/andP => [[s /mapP [k]]|[j_lt x_in]].
  rewrite mem_iota add0n /= => k_lt -> /mapP [y].
  by rewrite mem_filter => /andP [/eqP -> y_in] ->.
exists [seq j | y <- nodes (el_row el2no j) & y == x].
  by apply/mapP; exists j; rewrite // mem_iota.
by apply/mapP; exists x; rewrite // mem_filter eqxx.
Qed.

Lemma mem_np_unique (s : seq nat) : np_unique s =i s.
Proof. by move=> j; rewrite /np_unique mem_sort mem_undup. Qed.

Lemma np_unique_uniq (s : seq nat) : uniq (np_unique s).
Proof. by rewrite /np_unique sort_uniq undup_uniq. Qed.

(** [idx] holds the elements that share a node with element [i]. *)
Lemma mem_sar_idx (i j : nat) :
  (j \in sar_idx el2no i)
  = (j < ne)%N && shares_node (el_row el2no i) (el_row el2no j).
Proof.
rewrite /sar_idx /shares_node; case: (el_row el2no i) => [[a b] c] /=.
rewrite mem_np_unique !mem_cat !mem_argwhere_rows orbF.
by case: (j < ne)%N.
Qed.

Lemma sar_idx_uniq (i : nat) : uniq (sar_idx el2no i).
Proof.
by rewrite /sar_idx; case: (el_row el2no i) => [[a b] c]; apply: np_unique_uniq.
Qed.

Lemma shares_node_refl (e : element) : shares_node e e.
Proof. by case: e => [[a b] c]; rewrite /shares_node /= mem_head. Qed.

Lemma mem_neighbours (i j : nat) :
  (j \in neighbours el2no i)
  = [&& (j < ne)%N, j != i
      & shares_node (el_row el2no i) (el_row el2no j)].
Proof. by rewrite /neighbours mem_filter mem_iota add0n /= andbC andbA. Qed.

(** [idx] is element [i] and its neighbours: [nn] counts the latter. *)
Lemma size_sar_idx (i : nat) :
  (i < ne)%N -> size (sar_idx el2no i) = (size (neighbours el2no i)).+1.
Proof.
move=> i_lt; have uniq_nb : uniq (i :: neighbours el2no i).
  by rewrite /= mem_neighbours eqxx andbF /= filter_uniq // iota_uniq.
rewrite -[RHS]/(size (i :: neighbours el2no i)).
apply/perm_size/uniq_perm => //; first exact: sar_idx_uniq.
move=> j; rewrite mem_sar_idx in_cons mem_neighbours.
case: eqP => [->|_] //=.
by rewrite i_lt shares_node_refl.
Qed.

(** *** Reading and writing [d_mat] *)

Lemma getitem_setitem (d : seq (seq int)) i j x i' j' :
  getitem (setitem d i j x) i' j'
  = if (i' == i) && (j' == j) then x else getitem d i' j'.
Proof.
rewrite /getitem /setitem nth_set_nth /=.
by case: (i' =P i) => [->|_] //=; rewrite nth_set_nth.
Qed.

Lemma square_setitem (d : seq (seq int)) i j x :
  (i < ne)%N -> (j < ne)%N -> square d -> square (setitem d i j x).
Proof.
move=> i_lt j_lt [size_d size_row]; split.
  by rewrite /setitem size_set_nth size_d; apply/maxn_idPr.
move=> i' i'_lt; rewrite /setitem nth_set_nth /=.
case: (i' =P i) => [_|_]; last exact: size_row.
by rewrite size_set_nth size_row //; apply/maxn_idPr.
Qed.

Lemma square_np_eye : square (np_eye ne).
Proof.
split; first by rewrite /np_eye size_map size_iota.
move=> i i_lt; rewrite /np_eye (nth_map 0%N) ?size_iota //.
by rewrite size_map size_iota.
Qed.

Lemma getitem_np_eye i j :
  (i < ne)%N -> (j < ne)%N -> getitem (np_eye ne) i j = (i == j)%:Z.
Proof.
move=> i_lt j_lt; rewrite /getitem /np_eye (nth_map 0%N) ?size_iota //.
rewrite (nth_map 0%N) ?size_iota // !nth_iota // !add0n.
by case: eqP.
Qed.

(** *** The loop over [idx] *)

Lemma getitem_row_loop (d : seq (seq int)) i (idx : seq nat) i' j' :
  getitem (foldl (fun d j => setitem d i j (-1)) d idx) i' j'
  = if (i' == i) && (j' \in idx) then -1 else getitem d i' j'.
Proof.
elim: idx d => [|j idx IH] d /=; first by rewrite andbF.
rewrite IH getitem_setitem in_cons.
by case: (i' == i); case: (j' \in idx); rewrite ?orbT ?orbF //=.
Qed.

Lemma square_row_loop (d : seq (seq int)) i (idx : seq nat) :
  (i < ne)%N -> all (fun j => j < ne)%N idx -> square d ->
  square (foldl (fun d j => setitem d i j (-1)) d idx).
Proof.
move=> i_lt; elim: idx d => [|j idx IH] d //= /andP [j_lt idx_lt] sq_d.
by apply: IH => //; apply: square_setitem.
Qed.

(** *** One iteration of the loop over [i] *)

Lemma getitem_sar_body (d : seq (seq int)) i i' j' :
  getitem (sar_body el2no d i) i' j'
  = if i' == i then row_entry i j' (getitem d i j') else getitem d i' j'.
Proof.
rewrite /sar_body getitem_setitem getitem_row_loop /row_entry.
by case: (i' =P i) => [->|_] //=; case: (j' == i).
Qed.

Lemma sar_idx_lt i : all (fun j => j < ne)%N (sar_idx el2no i).
Proof. by apply/allP => j; rewrite mem_sar_idx => /andP []. Qed.

Lemma square_sar_body (d : seq (seq int)) i :
  (i < ne)%N -> square d -> square (sar_body el2no d i).
Proof.
move=> i_lt sq_d; rewrite /sar_body; apply: square_setitem => //.
by apply: square_row_loop => //; apply: sar_idx_lt.
Qed.

(** *** The whole loop *)

Lemma row_entry_idem i j z : row_entry i j (row_entry i j z) = row_entry i j z.
Proof. by rewrite /row_entry; case: (j == i) => //; case: (j \in _). Qed.

Lemma getitem_sar_loop (d : seq (seq int)) (s : seq nat) i j :
  getitem (foldl (sar_body el2no) d s) i j
  = if i \in s then row_entry i j (getitem d i j) else getitem d i j.
Proof.
elim: s d => [|k s IH] d //=.
rewrite IH getitem_sar_body in_cons.
case: (i =P k) => [<-|_] //=.
by rewrite row_entry_idem; case: (i \in s).
Qed.

Lemma square_sar_loop (d : seq (seq int)) (s : seq nat) :
  all (fun i => i < ne)%N s -> square d -> square (foldl (sar_body el2no) d s).
Proof.
elim: s d => [|i s IH] d //= /andP [i_lt s_lt] sq_d.
by apply: IH => //; apply: square_sar_body.
Qed.

Lemma square_sar : square (sar el2no).
Proof.
rewrite /sar; apply: square_sar_loop; last exact: square_np_eye.
by apply/allP => i; rewrite mem_iota add0n.
Qed.

Lemma getitem_sar i j :
  (i < ne)%N -> (j < ne)%N ->
  getitem (sar el2no) i j = row_entry i j 0.
Proof.
move=> i_lt j_lt; rewrite /sar getitem_sar_loop mem_iota add0n /= i_lt.
rewrite getitem_np_eye // /row_entry.
by case: (j =P i) => [//|/eqP]; rewrite eq_sym => /negPf ->.
Qed.

(** *** Rows *)

Lemma sar_row i :
  (i < ne)%N ->
  nth [::] (sar el2no) i = mkseq (fun j => row_entry i j 0) ne.
Proof.
move=> i_lt; have [_ size_row] := square_sar.
apply: (@eq_from_nth _ 0) => [|j]; rewrite size_row ?size_mkseq // => j_lt.
by rewrite nth_mkseq // -getitem_sar.
Qed.

Lemma sum_minus_one (s : seq nat) (P : pred nat) :
  \sum_(j <- s | P j) (-1 : int) = - (count P s)%:Z.
Proof.
elim: s => [|j s IH]; first by rewrite big_nil oppr0.
rewrite big_cons IH /=; case: (P j); last by rewrite add0n.
by rewrite add1n -addn1 PoszD opprD addrC.
Qed.

Lemma sar_row_sum i :
  (i < ne)%N -> \sum_(x <- nth [::] (sar el2no) i) x = 0.
Proof.
move=> i_lt; rewrite sar_row // big_map.
rewrite (bigD1_seq i) ?mem_iota ?iota_uniq //=.
rewrite {1}/row_entry eqxx size_sar_idx //.
have -> : \sum_(j <- iota 0 ne | j != i) row_entry i j 0
          = \sum_(j <- iota 0 ne | j != i)
              (if j \in sar_idx el2no i then -1 else 0).
  by apply: eq_bigr => j /negPf; rewrite /row_entry => ->.
rewrite -big_mkcondr sum_minus_one -size_filter.
have -> : [seq j <- iota 0 ne | (j != i) && (j \in sar_idx el2no i)]
          = neighbours el2no i.
  apply: eq_in_filter => j; rewrite mem_iota add0n /= => j_lt.
  by rewrite mem_sar_idx j_lt.
by rewrite -addn1 PoszD addrK subrr.
Qed.

(** C9: in the matrix [D] that [sar] returns, for every element [i], the
    diagonal entry is the number of other elements sharing a node with
    [i], the entry of each of them is [-1], the entry of every other
    element is [0], and row [i], which has one entry per element, sums
    to zero. *)
Theorem sar_adjacency i :
  (i < size el2no)%N ->
  [/\ getitem (sar el2no) i i = (size (neighbours el2no i))%:Z,
      forall j, (j < size el2no)%N -> j != i ->
        getitem (sar el2no) i j
        = if shares_node (el_row el2no i) (el_row el2no j) then -1 else 0,
      size (nth [::] (sar el2no) i) = size el2no
    & \sum_(x <- nth [::] (sar el2no) i) x = 0].
Proof.
move=> i_lt; split.
- rewrite getitem_sar // /row_entry eqxx size_sar_idx //.
  by rewrite -addn1 PoszD addrK.
- move=> j j_lt /negPf j_i.
  by rewrite getitem_sar // /row_entry j_i mem_sar_idx j_lt.
- by have [_ ->] := square_sar.
- exact: sar_row_sum.
Qed.

End SarProps.

(** A mesh of three triangles around node 0, and a strip with an isolated
    triangle. *)
Example sar_three_around_a_node :
  sar [:: (0, 1, 2); (0, 2, 3); (0, 3, 4)]%N
  = [:: [:: 2; -1; -1]; [:: -1; 2; -1]; [:: -1; -1; 2]].
Proof. by vm_compute. Qed.

Example sar_strip :
  sar [:: (0, 1, 2); (1, 2, 3); (3, 4, 5); (6, 7, 8)]%N
  = [:: [:: 1; -1; 0; 0]; [:: -1; 2; -1; 0]; [:: 0; -1; 1; 0];
        [:: 0; 0; 0; 0]].
Proof. by vm_compute. Qed.

Lemma sar_adjacency_witness :
  getitem (sar [:: (0, 1, 2); (0, 2, 3); (0, 3, 4)]%N) 1 1 = 2.
Proof.
by have [-> _ _ _] :=
  @sar_adjacency [:: (0, 1, 2); (0, 2, 3); (0, 3, 4)]%N 1 isT.
Defined.

(** * Further properties *)

(** ** The difference solvers, [map] *)

Section DifferenceMore.

Variable F : numClosedFieldType.
Variables m n : nat.

Implicit Types (H : 'M[F]_(n, m)) (c : F).

(** X1: the difference solve of a frame against itself is the zero
    estimate. *)
Theorem solve_same_frame H (v : 'cV[F]_m) : solve H v v false = Some 0.
Proof. by rewrite /solve subrr mulmx0 oppr0. Qed.






(** X4: in the normalized solve the two sign changes cancel: the estimate
    is [+H] times the relative change, where the plain solve gives [-H]
    times the change. *)
Theorem solve_normalized_sign H (v1 v0 : 'cV[F]_m) :
  all_nonzero v0 ->
  solve H v1 v0 true = Some (H *m np_divide (v1 - v0) v0).
Proof. by move=> nz; rewrite /solve nz mulmxN opprK. Qed.





End DifferenceMore.

(** ** [h_matrix], further *)

Section HMatrixMore.

Variable F : numClosedFieldType.
Variable E : Type.
Variable np_power : F -> E -> F.
Variables m n : nat.

Implicit Types (jac : 'M[F]_(m, n)) (p : E) (lamb : F) (method : pyobj).

(** the regularization matrix that [h_matrix] builds *)
Local Notation r_mat jac p method :=
  (if py_is method kotre then diag_power np_power (jac^T *m jac) p
   else 1%:M).





End HMatrixMore.

(** ** The Gauss-Newton solver, further *)

Section GnMore.

Variable F : numClosedFieldType.
Variable E : Type.
Variable np_power : F -> E -> F.
Variables m n : nat.

Notation jac_obj := (jac_obj F E m n).
Notation event := (event F n).

Implicit Types (self : jac_obj) (v : 'cV[F]_m) (tr : seq event).
Implicit Types (method : pyobj) (ld lmin : F).








(** X12: an exception of the forward solver at the initial estimate goes
    through [gn] unchanged; the forward solver was called once, and no
    matrix was formed. *)
Theorem gn_forward_error self v (x0 : option 'cV[F]_n) (k : nat) p
    (lamb : option F) ld lmin method verbose e :
  fwd self (if x0 is Some x then x else perm self) = Raise e ->
  let r := run (gn np_power self v x0 k.+1 p lamb ld lmin method verbose) in
  [/\ r.2 = Raise e, iterations r.1 = 1%N & lambs_used r.1 = [::]].
Proof.
move=> fwd_e; rewrite /run /gn /= /bind /gn_body /bind /emit /lift /ret.
by case: verbose => /=; rewrite fwd_e.
Qed.



End GnMore.

(** *** The schedule of [lamb], restarts, [verbose] *)

Section GnSchedule.

Variable F : numClosedFieldType.
Variable E : Type.
Variable np_power : F -> E -> F.
Variables m n : nat.

Notation jac_obj := (jac_obj F E m n).
Notation event := (event F n).

Implicit Types (self : jac_obj) (v : 'cV[F]_m) (tr : seq event).
Implicit Types (method : pyobj) (ld lmin : F).

(** An iteration forms [h_mat] at most once, with the [lamb] it got. *)
Lemma gn_body_lambs self v p ld lmin method verbose i x (lamb : F) tr :
  let tr' :=
    (gn_body np_power self v p ld lmin method verbose i (x, lamb) tr).1 in
  lambs_used tr' = lambs_used tr \/ lambs_used tr' = rcons (lambs_used tr) lamb.
Proof.
rewrite /gn_body /bind /emit /lift /ret.
case: verbose => /=; case: (fwd self x) => [fs|e] /=;
  rewrite ?lambs_used_rcons /=; try by left.
- by case: (la_solve _ _) => [d|e] /=; right; rewrite !lambs_used_rcons.
- by case: (la_solve _ _) => [d|e] /=; right; rewrite !lambs_used_rcons.
Qed.

(** What holds of the first [lamb] and is kept by the update holds of
    every [lamb] a run uses, whether the run returns or raises. *)
Lemma gn_loop_lamb_invariant (P : pred F) self v p ld lmin method verbose
    idx x (lamb : F) tr :
  (forall l, P l -> P (next_lamb lmin ld l)) ->
  P lamb -> all P (lambs_used tr) ->
  all P (lambs_used
           (for_each idx (gn_body np_power self v p ld lmin method verbose)
              (x, lamb) tr).1).
Proof.
move=> P_next; elim: idx x lamb tr => [|i idx IH] x lamb tr P_lamb P_tr //.
rewrite for_each_cons /bind.
have := gn_body_lambs self v p ld lmin method verbose i x lamb tr.
case eq_body: (gn_body _ _ _ _ _ _ _ _ _ _ _) => [tr1 [[x1 lamb1]|e]] /=.
  have [fs [d [_ _ _ -> _]]] := gn_body_ok eq_body.
  move=> lambs1; apply: IH; first exact: P_next.
  by case: lambs1 => ->; rewrite // all_rcons P_lamb.
by case=> ->; rewrite // all_rcons P_lamb.
Qed.

Lemma gn_lamb_invariant (P : pred F) self v (x0 : option 'cV[F]_n) maxiter p
    (lamb : F) ld lmin method verbose :
  (forall l, P l -> P (next_lamb lmin ld l)) -> P lamb ->
  all P (lambs_used
           (run (gn np_power self v x0 maxiter p (Some lamb) ld lmin method
                   verbose)).1).
Proof.
move=> P_next P_lamb; rewrite /run /gn /bind.
set loop := for_each _ _ _ _.
have : all P (lambs_used loop.1) by apply: gn_loop_lamb_invariant.
by case: loop => tr [a|e].
Qed.

(** X13: with [lamb_decay = 1], the default, or with [lamb] not above
    [lamb_min], every iteration uses the same [lamb]. *)
Theorem gn_lamb_constant self v (x0 : option 'cV[F]_n) maxiter p (lamb : F)
    ld lmin method verbose :
  (ld == 1) || ~~ (lmin < lamb) ->
  all (pred1 lamb)
    (lambs_used
       (run (gn np_power self v x0 maxiter p (Some lamb) ld lmin method
               verbose)).1).
Proof.
move=> no_decay; apply: gn_lamb_invariant => //= l /eqP ->.
rewrite /next_lamb; case: ifP => // above.
by move: no_decay; rewrite above orbF => /eqP ->; rewrite mulr1.
Qed.






Lemma silent_rcons tr (e : event) :
  silent (rcons tr e)
  = if is_printed e then silent tr else rcons (silent tr) e.
Proof. by rewrite /silent filter_rcons; case: (is_printed e). Qed.

Lemma gn_body_silent self v p ld lmin method i st tr :
  let r := gn_body np_power self v p ld lmin method true i st tr in
  gn_body np_power self v p ld lmin method false i st (silent tr)
  = (silent r.1, r.2).
Proof.
case: st => x lamb; rewrite /gn_body /bind /emit /lift /ret /=.
case: (fwd self x) => [fs|e] /=; last by rewrite !silent_rcons.
by case: (la_solve _ _) => [d|e] /=; rewrite !silent_rcons.
Qed.

Lemma gn_loop_silent self v p ld lmin method idx st tr :
  let r := for_each idx (gn_body np_power self v p ld lmin method true)
             st tr in
  for_each idx (gn_body np_power self v p ld lmin method false) st (silent tr)
  = (silent r.1, r.2).
Proof.
elim: idx st tr => [|i idx IH] st tr //=.
rewrite /bind gn_body_silent.
by case: (gn_body _ _ _ _ _ _ _ _ _ _ _) => tr1 [a1|e] /=.
Qed.

(** X17: [verbose] changes nothing but the printed lines: the result, the
    calls of the forward solver and the matrices formed are the same. *)
Theorem gn_verbose_only_prints self v (x0 : option 'cV[F]_n) maxiter p
    (lamb : option F) ld lmin method :
  let loud := run (gn np_power self v x0 maxiter p lamb ld lmin method true) in
  run (gn np_power self v x0 maxiter p lamb ld lmin method false)
  = (silent loud.1, loud.2).
Proof.
rewrite /run /gn /bind; set st := (_, _).
have /= := gn_loop_silent self v
  (if p is Some p' then p' else param_p (params self)) ld lmin
  (if py_is method PyNone then param_method (params self) else method)
  (range maxiter) st [::].
rewrite /silent /= => ->.
by case: (for_each _ _ _ _) => tr [a|e].
Qed.

End GnSchedule.

(** ** [sar] and [project], further *)

Section SarMore.

Variable el2no : seq element.

Local Notation ne := (size el2no).

Lemma shares_node_sym (e f : element) : shares_node e f = shares_node f e.
Proof. exact: has_sym. Qed.

(** X18: [sar] returns a square array, one row and one column per
    element, and it is symmetric. *)
Theorem sar_symmetric :
  square ne (sar el2no)
  /\ forall i j, (i < ne)%N -> (j < ne)%N ->
       getitem (sar el2no) i j = getitem (sar el2no) j i.
Proof.
split; first exact: square_sar.
move=> i j i_lt j_lt; rewrite !getitem_sar // /row_entry.
rewrite [j == i]eq_sym; case: eqP => [->|_] //.
by rewrite !mem_sar_idx i_lt j_lt shares_node_sym.
Qed.

Variable F : numClosedFieldType.

Lemma nseq_mkseq (c : F) k : nseq k c = mkseq (fun _ => c) k.
Proof.
apply: (@eq_from_nth _ c); rewrite ?size_nseq ?size_mkseq // => i i_lt.
by rewrite nth_nseq i_lt nth_mkseq.
Qed.






End SarMore.

(** ** The further properties on the instances *)



Lemma vec2_all_nonzero (a b : algC) :
  a != 0 -> b != 0 -> all_nonzero (vec2 a b).
Proof.
move=> a0 b0; apply/forallP => i; rewrite mxE.
by case: ifP.
Qed.

Lemma fwd_id_returns (x : 'cV[algC]_1) : ~~ raises (fwd jac_id x).
Proof. by []. Qed.


Lemma solve_normalized_sign_witness :
  solve (1%:M : 'M[algC]_2) (vec2 1 2) (vec2 1 1) true
  = Some (1%:M *m np_divide (vec2 1 2 - vec2 1 1) (vec2 1 1)).
Proof.
by apply: solve_normalized_sign; apply: vec2_all_nonzero; rewrite oner_eq0.
Defined.







Lemma gn_forward_error_witness :
  [/\ (run (gn int_power jac_fail 0 None 3%N None None 1 0 kotre false)).2
      = Raise ForwardError,
      iterations
        (run (gn int_power jac_fail 0 None 3%N None None 1 0 kotre false)).1
      = 1%N
    & lambs_used
        (run (gn int_power jac_fail 0 None 3%N None None 1 0 kotre false)).1
      = [::]].
Proof.
exact: (@gn_forward_error _ _ int_power 1 1 jac_fail 0 None 2 None None 1 0
          kotre false ForwardError (erefl _)).
Defined.

Lemma gn_lamb_constant_witness :
  all (pred1 (1 : algC))
    (lambs_used
       (run (gn int_power jac_id 0 None 3%N None (Some 1) 1 0 lm false)).1).
Proof. by apply: gn_lamb_constant; rewrite eqxx. Defined.




Lemma sar_symmetric_witness :
  getitem (sar [:: (0, 1, 2); (1, 2, 3); (3, 4, 5); (6, 7, 8)]%N) 0 1
  = getitem (sar [:: (0, 1, 2); (1, 2, 3); (3, 4, 5); (6, 7, 8)]%N) 1 0.
Proof.
by have [_ ->] :=
  sar_symmetric [:: (0, 1, 2); (1, 2, 3); (3, 4, 5); (6, 7, 8)]%N.
Defined.





(** With [lamb = 1], [lamb_decay = 0.5] and [lamb_min = 0.75] the second
    iteration uses [lamb = 0.5], below [lamb_min]. *)
Lemma gn_lamb_below_min :
  lambs_used
    (run (gn int_power jac_id 0 None 2%N None (Some 1) 2^-1 (3 / 4) lm
            false)).1
  = [:: 1; 2^-1]
  /\ 2^-1 < 3 / 4 :> algC.
Proof.
split.
  have := @gn_id_returns 0 None 2%N None 2^-1 (3 / 4).
  rewrite invr_ge0 ler0n => /(_ isT).
  rewrite /run /gn /bind.
  case eq_loop: (for_each _ _ _ _) => [tr [[x' lamb']|e]] //= _.
  rewrite (gn_loop_ok eq_loop) /= /next_lamb.
  by rewrite ltr_pdivrMr ?ltr0n // mul1r ltr_nat /= mul1r.
by rewrite ltr_pdivlMr ?ltr0n // mulrC ltr_pdivrMr ?ltr0n // -natrM ltr_nat.
Qed.
